(** * FSM.h: a generic finite state machine

    Shallow embedding of the class template
    [template<class State, State Initial, class Trigger> class FSM]
    of [FSM.h], and the properties of its construction, of [AddTransitions],
    [GetState], [SetState], [IsInitial] and [Execute].

    - [std::map<State, std::vector<Trans>>] is a [gmap State (list Trans)];
    - [std::function<void()>] is an [option] of an opaque call target: the
      empty wrapper is [None], [operator bool] is [has_target], and
      [operator()] on an empty wrapper throws [bad_function_call];
    - member functions are computations in a small monad [M] that threads
      the object ([this]), accumulates the trace of callback invocations and
      can raise a C++ exception; [noexcept] turns an escaping exception into
      a call of [std::terminate].

    Call targets are opaque to the class and do not touch the machine they
    are registered in; an invocation is recorded in the trace together with
    the value of [m_currentState] at the moment of the call.  In [call],
    [Execute] and the properties stated on them every target returns
    normally; [Raising.call] and [Raising.Execute] are the same code for
    targets that may throw, where [noexcept] decides what [Execute] does. *)

From stdpp Require Import gmap list.

Section FSM.

(** Template parameters: [class State], [State Initial], [class Trigger]. *)
Context {State : Type} `{Countable State}.
Context {Trigger : Type} `{EqDecision Trigger}.
Variable Initial : State.

(** The targets a [std::function<void()>] may wrap. *)
Context {Callable : Type}.

(** [struct Trans] (FSM.h, lines 64-69). *)
Record Trans : Type := mkTrans {
  m_originState : State;
  m_destinationState : State;
  m_trigger : Trigger;
  m_action : option Callable
}.

(** The data members of the class (lines 73-74). *)
Record FSM : Type := mkFSM {
  m_currentState : State;
  m_transitions : gmap State (list Trans)
}.

(** ** Effects *)

(** One invocation of a call target, with the current state of the machine
    while the target runs. *)
Inductive Event : Type :=
| Invoke (target : Callable) (during : State).

Inductive Exception : Type :=
| bad_function_call
| target_exception.

Inductive Outcome (A : Type) : Type :=
| Returns (a : A) (this : FSM) (tr : list Event)
| Throws (e : Exception) (this : FSM) (tr : list Event)
| Terminates (tr : list Event).

Definition M (A : Type) : Type := FSM → Outcome A.

Definition M_ret {A} (a : A) : M A := λ this, Returns A a this [].

Definition M_bind {A B} (f : A → M B) (m : M A) : M B := λ this,
  match m this with
  | Returns _ a this1 tr1 =>
      match f a this1 with
      | Returns _ b this2 tr2 => Returns B b this2 (tr1 ++ tr2)
      | Throws _ e this2 tr2 => Throws B e this2 (tr1 ++ tr2)
      | Terminates _ tr2 => Terminates B (tr1 ++ tr2)
      end
  | Throws _ e this1 tr1 => Throws B e this1 tr1
  | Terminates _ tr1 => Terminates B tr1
  end.

#[local] Instance M_mret : MRet M := @M_ret.
#[local] Instance M_mbind : MBind M := @M_bind.

(** A function declared [noexcept]: an exception that would leave it calls
    [std::terminate]. *)
Definition noexcept {A} (m : M A) : M A := λ this,
  match m this with
  | Throws _ _ _ tr => Terminates A tr
  | o => o
  end.

Definition read_currentState : M State := λ this,
  Returns State (m_currentState this) this [].

Definition write_currentState (s : State) : M unit := λ this,
  Returns unit () (mkFSM s (m_transitions this)) [].

Definition read_transitions : M (gmap State (list Trans)) := λ this,
  Returns _ (m_transitions this) this [].

Definition write_transitions (t : gmap State (list Trans)) : M unit := λ this,
  Returns unit () (mkFSM (m_currentState this) t) [].

(** [std::function::operator bool]. *)
Definition has_target (f : option Callable) : bool :=
  match f with Some _ => true | None => false end.

(** [std::function::operator()]. *)
Definition call (f : option Callable) : M unit := λ this,
  match f with
  | Some target => Returns unit () this [Invoke target (m_currentState this)]
  | None => Throws unit bad_function_call this []
  end.

(** ** Member functions *)

(** [m_transitions[c.m_originState].emplace_back(c)] (line 91):
    [operator[]] creates an empty vector when the key is absent. *)
Definition emplace_transition (c : Trans) : M unit :=
  t ← read_transitions;
  write_transitions
    (<[m_originState c := default [] (t !! m_originState c) ++ [c]]> t).

(** The loop of [AddTransitions] (lines 90-92). *)
Fixpoint AddTransitions_loop (xi_collection : list Trans) : M unit :=
  match xi_collection with
  | [] => mret ()
  | c :: rest => _ ← emplace_transition c; AddTransitions_loop rest
  end.

(** [AddTransitions] (lines 88-93). *)
Definition AddTransitions (xi_collection : list Trans) : M unit :=
  noexcept (AddTransitions_loop xi_collection).

(** [GetState] (line 96). *)
Definition GetState : M State := noexcept read_currentState.

(** [SetState] (line 99). *)
Definition SetState (xi_state : State) : M unit :=
  noexcept (write_currentState xi_state).

(** [IsInitial] (line 102). *)
Definition IsInitial : M bool :=
  noexcept (s ← read_currentState; mret (bool_decide (s = Initial))).

(** The loop of [Execute] (lines 118-131); falling off the end of the
    vector leads to [return false] (line 134). *)
Fixpoint Execute_loop (xi_trigger : Trigger) (ts : list Trans) : M bool :=
  match ts with
  | [] => mret false
  | transition :: rest =>
      if decide (xi_trigger ≠ m_trigger transition)
      then Execute_loop xi_trigger rest
      else
        _ ← (if has_target (m_action transition)
             then call (m_action transition)
             else mret ());
        _ ← write_currentState (m_destinationState transition);
        mret true
  end.

(** [Execute] (lines 110-135). *)
Definition Execute (xi_trigger : Trigger) : M bool :=
  noexcept (
    s ← read_currentState;
    t ← read_transitions;
    match t !! s with
    | None => mret false
    | Some state_transitions => Execute_loop xi_trigger state_transitions
    end).

(** ** Constructors *)

(** [FSM()] (line 80). *)
Definition FSM_default : FSM := mkFSM Initial ∅.

(** [FSM(const std::vector<Trans>&)], [FSM(std::initializer_list<Trans>)]
    and [FSM(const std::array<Trans, N>&)] (lines 83-85).  They have no
    member initialiser for [m_currentState]: a scalar member that is
    default-initialised keeps what its storage held before, here
    [storage]; [m_transitions] is default-constructed (empty). *)
Definition FSM_collection (storage : State) (xi_transitions : list Trans)
  : Outcome unit :=
  AddTransitions xi_transitions (mkFSM storage ∅).

(** ** Sequences of member-function calls *)

Inductive Op : Type :=
| OpAddTransitions (xi_collection : list Trans)
| OpGetState
| OpSetState (xi_state : State)
| OpIsInitial
| OpExecute (xi_trigger : Trigger).

Inductive Value : Type :=
| VVoid
| VState (s : State)
| VBool (b : bool).

Definition perform (op : Op) : M Value :=
  match op with
  | OpAddTransitions xi => _ ← AddTransitions xi; mret VVoid
  | OpGetState => s ← GetState; mret (VState s)
  | OpSetState s => _ ← SetState s; mret VVoid
  | OpIsInitial => b ← IsInitial; mret (VBool b)
  | OpExecute t => b ← Execute t; mret (VBool b)
  end.

Fixpoint perform_all (ops : list Op) : M (list Value) :=
  match ops with
  | [] => mret []
  | op :: rest => v ← perform op; vs ← perform_all rest; mret (v :: vs)
  end.

(** ** Vocabulary of the properties *)

(** The transitions registered under an origin state, in the order of the
    vector. *)
Definition transitions_from (this : FSM) (s : State) : list Trans :=
  default [] (m_transitions this !! s).

(** The first transition of a vector whose trigger is the given one. *)
Fixpoint first_match (xi_trigger : Trigger) (ts : list Trans) : option Trans :=
  match ts with
  | [] => None
  | t :: rest =>
      if decide (m_trigger t = xi_trigger) then Some t
      else first_match xi_trigger rest
  end.

(** The transition that answers a trigger in the current state, if any. *)
Definition enabled (this : FSM) (xi_trigger : Trigger) : option Trans :=
  first_match xi_trigger (transitions_from this (m_currentState this)).

(** The trace left by the action of a transition taken from state [s]. *)
Definition invocations (f : option Callable) (s : State) : list Event :=
  match f with
  | Some target => [Invoke target s]
  | None => []
  end.

(** The machine after taking transition [t]. *)
Definition moved (this : FSM) (t : Trans) : FSM :=
  mkFSM (m_destinationState t) (m_transitions this).

(** [t] is stored in the table. *)
Definition registered (this : FSM) (t : Trans) : Prop :=
  ∃ s ts, m_transitions this !! s = Some ts ∧ t ∈ ts.

(** [s] is the origin or the destination of a stored transition. *)
Definition referenced (this : FSM) (s : State) : Prop :=
  ∃ t, registered this t ∧ (m_originState t = s ∨ m_destinationState t = s).

(** All transitions handed to [AddTransitions] by a sequence of calls, in
    the order of the calls. *)
Fixpoint registrations (ops : list Op) : list Trans :=
  match ops with
  | [] => []
  | OpAddTransitions xi :: rest => xi ++ registrations rest
  | _ :: rest => registrations rest
  end.

(** All states handed to [SetState] by a sequence of calls. *)
Fixpoint SetState_arguments (ops : list Op) : list State :=
  match ops with
  | [] => []
  | OpSetState s :: rest => s :: SetState_arguments rest
  | _ :: rest => SetState_arguments rest
  end.

End FSM.

Arguments Trans State Trigger Callable : clear implicits.
Arguments FSM State {_ _} Trigger Callable.
Arguments Op State Trigger Callable : clear implicits.
Arguments Value State : clear implicits.
Arguments Returns {State _ _ Trigger Callable A} a this tr.
Arguments Throws {State _ _ Trigger Callable A} e this tr.
Arguments Terminates {State _ _ Trigger Callable A} tr.

(** ** The example of the header comment

    [enum class States : uint8_t { A, B, C }],
    [enum class Triggers : uint8_t { a, b }] and
    [FSM<States, States::A, Triggers>] with the transitions
    [A --a--> B] and [B --b--> C], each with a printing action. *)
Module Demo.

Inductive States : Type := A | B | C.
Inductive Triggers : Type := a | b.
Inductive Lambdas : Type := print_A_to_B | print_B_to_C.

#[global] Instance States_eq_dec : EqDecision States.
Proof. solve_decision. Defined.

#[global] Instance Triggers_eq_dec : EqDecision Triggers.
Proof. solve_decision. Defined.

Definition States_to_nat (s : States) : nat :=
  match s with A => 0 | B => 1 | C => 2 end.

Definition States_of_nat (n : nat) : States :=
  match n with 0 => A | 1 => B | _ => C end.

Definition States_of_to_nat (s : States) : States_of_nat (States_to_nat s) = s :=
  match s with A => eq_refl | B => eq_refl | C => eq_refl end.

#[global] Instance States_countable : Countable States :=
  inj_countable' States_to_nat States_of_nat States_of_to_nat.

(** The two transitions of the example, lines 22-23. *)
Definition first_rule : Trans States Triggers Lambdas :=
  mkTrans A B a (Some print_A_to_B).

Definition second_rule : Trans States Triggers Lambdas :=
  mkTrans B C b (Some print_B_to_C).

Definition transitions : list (Trans States Triggers Lambdas) :=
  [ first_rule; second_rule ].

(** The table that [AddTransitions] builds from them. *)
Definition table : gmap States (list (Trans States Triggers Lambdas)) :=
  <[B := [second_rule]]> (<[A := [first_rule]]> ∅).

(** [fsm] of the example, with [m_currentState] as its storage had it. *)
Definition fsm (storage : States) : FSM States Triggers Lambdas :=
  mkFSM storage table.

(** Further transitions for the same machine: one with the origin and the
    trigger of [first_rule] and another destination and action, and one
    from [C] without an action. *)
Definition rival_rule : Trans States Triggers Lambdas :=
  mkTrans A C a (Some print_B_to_C).

Definition silent_rule : Trans States Triggers Lambdas :=
  mkTrans C A a None.

(** The calls of the example, lines 26-34. *)
Definition scenario : list (Op States Triggers Lambdas) :=
  [ OpIsInitial; OpExecute a; OpGetState; OpExecute b; OpGetState;
    OpSetState A; OpIsInitial ].

End Demo.

(** ** The machine as an automaton, and measures of a run *)
Section Automaton.

Context {State : Type} `{Countable State}.
Context {Trigger : Type} `{EqDecision Trigger}.
Context {Callable : Type}.

(** The state [Execute] leaves the machine in, read off the table: the
    destination of the first transition stored under [s] with the trigger,
    and [s] itself when there is none. *)
Definition delta (tbl : gmap State (list (Trans State Trigger Callable)))
    (s : State) (xi_trigger : Trigger) : State :=
  match first_match xi_trigger (default [] (tbl !! s)) with
  | Some t => m_destinationState t
  | None => s
  end.

(** What [Execute] returns in state [s], read off the table. *)
Definition accepts (tbl : gmap State (list (Trans State Trigger Callable)))
    (s : State) (xi_trigger : Trigger) : bool :=
  match first_match xi_trigger (default [] (tbl !! s)) with
  | Some _ => true
  | None => false
  end.

(** The results of running a list of triggers from state [s]. *)
Fixpoint answers (tbl : gmap State (list (Trans State Trigger Callable)))
    (s : State) (trigs : list Trigger) : list (Value State) :=
  match trigs with
  | [] => []
  | trig :: rest => VBool (accepts tbl s trig) :: answers tbl (delta tbl s trig) rest
  end.

(** The number of [Execute] calls of a run that returned [true]. *)
Fixpoint successes (ops : list (Op State Trigger Callable))
    (vs : list (Value State)) : nat :=
  match ops, vs with
  | OpExecute _ :: ops', VBool true :: vs' => S (successes ops' vs')
  | _ :: ops', _ :: vs' => successes ops' vs'
  | _, _ => 0
  end.

(** Every vector of the table is non-empty and holds only transitions whose
    origin is its key. *)
Definition well_keyed (this : FSM State Trigger Callable) : Prop :=
  ∀ s ts, m_transitions this !! s = Some ts →
          ts ≠ [] ∧ Forall (λ t, m_originState t = s) ts.

(** The call target of an event is the action of a transition stored under
    the state the machine was in during the call. *)
Definition from_table (this : FSM State Trigger Callable)
    (e : Event (State:=State) (Callable:=Callable)) : Prop :=
  match e with
  | Invoke target during =>
      ∃ t, t ∈ transitions_from this during ∧ m_action t = Some target
  end.

End Automaton.

(** ** [Execute] with call targets that may throw

    The same member function, lines 110-135, with [std::function::operator()]
    forwarding what its target does: the invocation of a target either
    returns or ends by throwing, as [raises] says.  [Execute] is declared
    [noexcept] (line 110). *)
Module Raising.
Section Raising.

Context {State : Type} `{Countable State}.
Context {Trigger : Type} `{EqDecision Trigger}.
Context {Callable : Type}.

(** Whether the invocation of a target ends by throwing. *)
Variable raises : Callable → bool.

#[local] Existing Instance M_mret.
#[local] Existing Instance M_mbind.

(** [std::function::operator()]. *)
Definition call (f : option Callable)
  : M (State:=State) (Trigger:=Trigger) (Callable:=Callable) unit := λ this,
  match f with
  | Some target =>
      if raises target
      then Throws target_exception this [Invoke target (m_currentState this)]
      else Returns () this [Invoke target (m_currentState this)]
  | None => Throws bad_function_call this []
  end.

(** The loop of [Execute] (lines 118-131). *)
Fixpoint Execute_loop (xi_trigger : Trigger)
    (ts : list (Trans State Trigger Callable))
  : M (State:=State) (Trigger:=Trigger) (Callable:=Callable) bool :=
  match ts with
  | [] => mret false
  | transition :: rest =>
      if decide (xi_trigger ≠ m_trigger transition)
      then Execute_loop xi_trigger rest
      else
        _ ← (if has_target (m_action transition)
             then call (m_action transition)
             else mret ());
        _ ← write_currentState (m_destinationState transition);
        mret true
  end.

(** The body of [Execute] (lines 111-134), before [noexcept] applies. *)
Definition Execute_body (xi_trigger : Trigger)
  : M (State:=State) (Trigger:=Trigger) (Callable:=Callable) bool :=
  s ← read_currentState;
  t ← read_transitions;
  match t !! s with
  | None => mret false
  | Some state_transitions => Execute_loop xi_trigger state_transitions
  end.

(** [Execute] (lines 110-135). *)
Definition Execute (xi_trigger : Trigger)
  : M (State:=State) (Trigger:=Trigger) (Callable:=Callable) bool :=
  noexcept (Execute_body xi_trigger).

End Raising.
End Raising.

(** * Properties *)

(** Unfolds the monad and the primitive accesses to the object. *)
Ltac run_M :=
  unfold GetState, SetState, IsInitial, emplace_transition, noexcept,
    read_currentState, write_currentState, read_transitions,
    write_transitions, call, has_target,
    mbind, mret, M_mbind, M_mret, M_bind, M_ret in *;
  simpl in *.

Section Properties.

Context {State : Type} `{Countable State}.
Context {Trigger : Type} `{EqDecision Trigger}.
Context {Callable : Type}.
Variable Initial : State.

Implicit Types this : FSM State Trigger Callable.
Implicit Types t c : Trans State Trigger Callable.
Implicit Types ts xi : list (Trans State Trigger Callable).
Implicit Types ops : list (Op State Trigger Callable).
Implicit Types s : State.
Implicit Types trig : Trigger.

(** ** The loop of [Execute] finds the first match *)

Lemma first_match_app_skip trig pre ts :
  Forall (λ u, m_trigger u ≠ trig) pre →
  first_match trig (pre ++ ts) = first_match trig ts.
Proof.
  induction 1 as [|u pre Hu _ IH]; simpl; [done|].
  by rewrite decide_False.
Qed.

Lemma first_match_None trig ts :
  first_match trig ts = None ↔ Forall (λ u, m_trigger u ≠ trig) ts.
Proof.
  induction ts as [|u ts IH]; simpl.
  - split; [constructor | done].
  - case_decide as Hu.
    + split; [done|]. inversion 1; contradiction.
    + rewrite IH. split; [by constructor | by inversion 1].
Qed.

Lemma first_match_Some trig ts t :
  first_match trig ts = Some t ↔
  ∃ pre post, ts = pre ++ t :: post ∧ m_trigger t = trig ∧
              Forall (λ u, m_trigger u ≠ trig) pre.
Proof.
  split.
  - induction ts as [|u ts IH]; simpl; [done|].
    case_decide as Hu.
    + intros [= ->]. exists [], ts. by repeat split.
    + intros (pre & post & -> & Ht & Hpre)%IH.
      exists (u :: pre), post. repeat split; [done|]. by constructor.
  - intros (pre & post & -> & Ht & Hpre).
    rewrite first_match_app_skip by done. simpl. by rewrite decide_True.
Qed.

Lemma first_match_filter trig ts :
  first_match trig ts = head (filter (λ u, m_trigger u = trig) ts).
Proof.
  induction ts as [|u ts IH]; simpl; [done|].
  rewrite filter_cons. by case_decide.
Qed.

Lemma Execute_loop_first_match trig ts this :
  Execute_loop trig ts this =
  match first_match trig ts with
  | Some t =>
      Returns true (moved this t) (invocations (m_action t) (m_currentState this))
  | None => Returns false this []
  end.
Proof.
  induction ts as [|u ts IH]; simpl; [done|].
  destruct (decide (trig ≠ m_trigger u)) as [Hne|Heq].
  - rewrite decide_False by done. apply IH.
  - apply dec_stable in Heq. rewrite decide_True by done.
    run_M. unfold moved, invocations.
    by destruct (m_action u).
Qed.

(** [Execute] is the function that takes the enabled transition, if there
    is one. *)
Lemma Execute_enabled trig this :
  Execute trig this =
  match enabled this trig with
  | Some t =>
      Returns true (moved this t) (invocations (m_action t) (m_currentState this))
  | None => Returns false this []
  end.
Proof.
  unfold Execute, enabled, transitions_from. run_M.
  destruct (m_transitions this !! m_currentState this) as [ts|]; simpl; [|done].
  rewrite Execute_loop_first_match.
  destruct (first_match trig ts); by rewrite ?app_nil_r.
Qed.

(** ** [AddTransitions] appends under the origin state *)

Lemma registered_transitions_from this t :
  registered this t ↔ ∃ s, t ∈ transitions_from this s.
Proof.
  unfold registered, transitions_from. split.
  - intros (s & ts & Hs & Ht). exists s. by rewrite Hs.
  - intros (s & Ht). destruct (m_transitions this !! s) as [ts|] eqn:Hs.
    + by exists s, ts.
    + by apply elem_of_nil in Ht.
Qed.

Lemma emplace_transition_from c this :
  ∃ this', emplace_transition c this = Returns () this' [] ∧
    m_currentState this' = m_currentState this ∧
    ∀ s, transitions_from this' s =
         transitions_from this s ++ filter (λ t, m_originState t = s) [c].
Proof.
  eexists. split; [reflexivity|]. split; [done|].
  intros s. unfold transitions_from. simpl.
  rewrite filter_cons, filter_nil.
  destruct (decide (m_originState c = s)) as [->|Hne].
  - by rewrite lookup_insert_eq.
  - by rewrite lookup_insert_ne, app_nil_r.
Qed.

Lemma AddTransitions_loop_from xi this :
  ∃ this', AddTransitions_loop xi this = Returns () this' [] ∧
    m_currentState this' = m_currentState this ∧
    ∀ s, transitions_from this' s =
         transitions_from this s ++ filter (λ t, m_originState t = s) xi.
Proof.
  revert this. induction xi as [|c xi IH]; intros this.
  - exists this. split; [done|]. split; [done|].
    intros s. by rewrite filter_nil, app_nil_r.
  - destruct (emplace_transition_from c this) as (this1 & E1 & Hs1 & Hfrom1).
    destruct (IH this1) as (this2 & E2 & Hs2 & Hfrom2).
    exists this2. split; [|split].
    + cbn [AddTransitions_loop]. unfold mbind, M_mbind, M_bind.
      by rewrite E1, E2.
    + congruence.
    + intros s. rewrite Hfrom2, Hfrom1, <-(assoc_L (++)).
      f_equal. symmetry. apply (filter_app _ [c] xi).
Qed.

Lemma AddTransitions_from xi this :
  ∃ this', AddTransitions xi this = Returns () this' [] ∧
    m_currentState this' = m_currentState this ∧
    ∀ s, transitions_from this' s =
         transitions_from this s ++ filter (λ t, m_originState t = s) xi.
Proof.
  destruct (AddTransitions_loop_from xi this) as (this' & E & Hs & Hfrom).
  exists this'. unfold AddTransitions, noexcept. by rewrite E.
Qed.

(** ** One call, and sequences of calls *)

(** What a single call does to the table and to the current state. *)
Lemma perform_effect op this :
  ∃ v this' tr, perform Initial op this = Returns v this' tr ∧
    (∀ s, transitions_from this' s =
          transitions_from this s ++
          filter (λ t, m_originState t = s) (registrations [op])) ∧
    (m_currentState this' = m_currentState this ∨
     op = OpSetState (m_currentState this') ∨
     ∃ trig t, op = OpExecute trig ∧ v = VBool true ∧
               t ∈ transitions_from this (m_currentState this) ∧
               m_destinationState t = m_currentState this').
Proof.
  destruct op as [xi| |x| |trig]; cbn [perform registrations].
  - destruct (AddTransitions_from xi this) as (this' & E & Hs & Hfrom).
    exists VVoid, this', []. unfold mbind, M_mbind, M_bind. rewrite E.
    rewrite app_nil_r. auto.
  - exists (VState (m_currentState this)), this, [].
    split; [done|]. split; [|by left].
    intros s. by rewrite filter_nil, app_nil_r.
  - exists VVoid, (mkFSM x (m_transitions this)), [].
    split; [done|]. split; [|by right; left].
    intros s. by rewrite filter_nil, app_nil_r.
  - exists (VBool (bool_decide (m_currentState this = Initial))), this, [].
    split; [done|]. split; [|by left].
    intros s. by rewrite filter_nil, app_nil_r.
  - unfold mbind, M_mbind, M_bind. rewrite Execute_enabled.
    destruct (enabled this trig) as [t|] eqn:Hen.
    + eexists _, _, _. split; [reflexivity|]. split.
      * intros s. by rewrite filter_nil, app_nil_r.
      * right; right. exists trig, t. repeat split.
        apply first_match_Some in Hen as (pre & post & -> & _).
        apply elem_of_app. right. by left.
    + eexists _, _, _. split; [reflexivity|]. split; [|by left].
      intros s. by rewrite filter_nil, app_nil_r.
Qed.

Lemma perform_all_cons op ops this v this1 tr1 vs this2 tr2 :
  perform Initial op this = Returns v this1 tr1 →
  perform_all Initial ops this1 = Returns vs this2 tr2 →
  perform_all Initial (op :: ops) this = Returns (v :: vs) this2 (tr1 ++ tr2).
Proof.
  intros E1 E2. cbn [perform_all]. unfold mbind, M_mbind, M_bind.
  rewrite E1, E2. simpl. by rewrite app_nil_r.
Qed.

Lemma registrations_cons op ops :
  registrations (op :: ops) = registrations [op] ++ registrations ops.
Proof. destruct op; simpl; by rewrite ?app_nil_r. Qed.

(** Every sequence of calls runs to completion; the table grows by the
    registrations, each under its origin and in call order; the current
    state is the one before, an argument of [SetState], or the destination
    of a stored transition. *)
Lemma perform_all_effect ops this :
  ∃ vs this' tr, perform_all Initial ops this = Returns vs this' tr ∧
    (∀ s, transitions_from this' s =
          transitions_from this s ++
          filter (λ t, m_originState t = s) (registrations ops)) ∧
    (m_currentState this' = m_currentState this ∨
     m_currentState this' ∈ SetState_arguments ops ∨
     ∃ t, registered this' t ∧ m_destinationState t = m_currentState this').
Proof.
  revert this. induction ops as [|op ops IH]; intros this.
  - exists [], this, []. split; [done|]. split; [|by left].
    intros s. simpl. by rewrite filter_nil, app_nil_r.
  - destruct (perform_effect op this) as (v & this1 & tr1 & E1 & Hfrom1 & Hcur1).
    destruct (IH this1) as (vs & this2 & tr2 & E2 & Hfrom2 & Hcur2).
    exists (v :: vs), this2, (tr1 ++ tr2).
    split; [by apply (perform_all_cons _ _ _ _ this1)|]. split.
    + intros s. rewrite Hfrom2, Hfrom1, (registrations_cons op ops), filter_app.
      by rewrite <-(assoc_L (++)).
    + destruct Hcur2 as [Heq|[Hset|Hdest]]; [|right; left|by right; right].
      * rewrite Heq.
        destruct Hcur1 as [Hsame|[->|(trig & t & -> & _ & Ht & Hdest)]].
        -- by left.
        -- right; left. simpl. by left.
        -- right; right. exists t. split; [|done].
           apply registered_transitions_from.
           exists (m_currentState this).
           rewrite Hfrom2, Hfrom1. by do 2 (apply elem_of_app; left).
      * destruct op; simpl; try done. by right.
Qed.

(** ** Construction *)

(** The default constructor starts the machine in [Initial]. *)
Lemma FSM_default_initial :
  GetState (FSM_default Initial) =
    Returns Initial (FSM_default (Trigger:=Trigger) (Callable:=Callable) Initial) [] ∧
  IsInitial Initial (FSM_default Initial) =
    Returns true (FSM_default (Trigger:=Trigger) (Callable:=Callable) Initial) [].
Proof. split; [done|]. run_M. by rewrite bool_decide_eq_true_2. Qed.

(** The constructors from a collection leave [m_currentState] as the
    storage had it, whatever [Initial] is. *)
Lemma FSM_collection_storage storage xi :
  ∃ this, FSM_collection storage xi = Returns () this [] ∧
    GetState this = Returns storage this [] ∧
    IsInitial Initial this = Returns (bool_decide (storage = Initial)) this [].
Proof.
  unfold FSM_collection.
  destruct (AddTransitions_from xi (mkFSM storage ∅)) as (this & E & Hs & _).
  exists this. split; [done|]. run_M. by rewrite Hs.
Qed.

(** ** [Execute] *)

(** C3. If the current state has no entry in the table, or no transition
    of its entry has the given trigger, [Execute] returns [false], the
    object is unchanged (current state and table) and no callback is
    invoked. *)
Theorem Execute_no_match trig this :
  m_transitions this !! m_currentState this = None ∨
  (∃ ts, m_transitions this !! m_currentState this = Some ts ∧
         Forall (λ t, m_trigger t ≠ trig) ts) →
  Execute trig this = Returns false this [].
Proof.
  intros Hno. rewrite Execute_enabled.
  assert (enabled this trig = None) as ->; [|done].
  unfold enabled, transitions_from.
  destruct Hno as [->|(ts & -> & Hts)]; simpl; [done|].
  by apply first_match_None.
Qed.

(** C2, as amended. When the current state is [A] and the table holds a
    transition [t] under [A], [Execute (m_trigger t)] returns [true]; when
    moreover no transition registered under [A] before [t] has the same
    trigger, the call invokes the action of [t] exactly once if it is
    present (not at all if it is absent), while the current state is still
    [A], and [GetState] then returns the destination of [t]. *)
Theorem Execute_first_registered this t :
  t ∈ transitions_from this (m_currentState this) →
  (∃ this' tr, Execute (m_trigger t) this = Returns true this' tr) ∧
  (∀ pre post,
     transitions_from this (m_currentState this) = pre ++ t :: post →
     Forall (λ u, m_trigger u ≠ m_trigger t) pre →
     ∃ this',
       Execute (m_trigger t) this =
         Returns true this' (invocations (m_action t) (m_currentState this)) ∧
       GetState this' = Returns (m_destinationState t) this' []).
Proof.
  intros Ht. split.
  - rewrite Execute_enabled.
    destruct (enabled this (m_trigger t)) as [u|] eqn:Hen; [by eauto|].
    apply first_match_None in Hen.
    rewrite Forall_forall in Hen. by destruct (Hen t Ht).
  - intros pre post Hdec Hpre. exists (moved this t).
    rewrite Execute_enabled.
    assert (enabled this (m_trigger t) = Some t) as ->; [|done].
    apply first_match_Some. by exists pre, post.
Qed.

(** C10. When the first transition of the current state that matches the
    trigger has an empty action, [Execute] makes no call at all (so the
    empty wrapper is never invoked and nothing is thrown), sets the current
    state to the destination and returns [true]. *)
Theorem Execute_empty_action this t pre post :
  transitions_from this (m_currentState this) = pre ++ t :: post →
  Forall (λ u, m_trigger u ≠ m_trigger t) pre →
  m_action t = None →
  Execute (m_trigger t) this =
    Returns true (mkFSM (m_destinationState t) (m_transitions this)) [].
Proof.
  intros Hdec Hpre Hact. rewrite Execute_enabled.
  assert (enabled this (m_trigger t) = Some t) as ->.
  { apply first_match_Some. by exists pre, post. }
  by rewrite Hact.
Qed.

(** Invoking an empty wrapper throws, and inside a [noexcept] function
    that ends the program: this is what the test of line 124 avoids. *)
Lemma call_empty_terminates this :
  call None this = Throws bad_function_call this [] ∧
  noexcept (call None) this = Terminates (A:=unit) [].
Proof. done. Qed.

(** With targets that return, [Execute] returns a boolean for every trigger
    and every object.  It returns [true] exactly when the current state has
    a transition with the trigger; then the object has taken the first such
    transition.  When it returns [false] nothing has happened. *)
Lemma Execute_returns trig this :
  ∃ b this' tr, Execute trig this = Returns b this' tr ∧
    (b = true ↔
     ∃ t, t ∈ transitions_from this (m_currentState this) ∧ m_trigger t = trig) ∧
    (b = true →
     ∃ pre t post,
       transitions_from this (m_currentState this) = pre ++ t :: post ∧
       Forall (λ u, m_trigger u ≠ trig) pre ∧ m_trigger t = trig ∧
       this' = moved this t ∧
       tr = invocations (m_action t) (m_currentState this)) ∧
    (b = false → this' = this ∧ tr = []).
Proof.
  rewrite Execute_enabled.
  destruct (enabled this trig) as [t|] eqn:Hen.
  - apply first_match_Some in Hen as (pre & post & Hdec & Ht & Hpre).
    eexists _, _, _. split; [reflexivity|]. split; [|split]; [| |done].
    + split; [|done]. intros _. exists t. split; [|done].
      rewrite Hdec. apply elem_of_app. right. by left.
    + intros _. by exists pre, t, post.
  - apply first_match_None in Hen.
    eexists _, _, _. split; [reflexivity|]. split; [|split]; [|done|done].
    split; [done|]. intros (t & Ht & Htrig).
    rewrite Forall_forall in Hen. by destruct (Hen t Ht).
Qed.

(** C4. Take an object whose table was empty after member initialisation
    and that went through any sequence of calls.  If the transitions that
    were registered with origin [o] and trigger [trig] are, in registration
    order, [T1], [T2] and possibly more, then [Execute trig] in state [o]
    returns [true] with exactly the effect of [T1]: its action is the only
    call made (at most one), and the current state becomes its
    destination.  [T2] and the later ones play no part in the result.
    Moreover any call of [Execute] takes at most one transition. *)
Theorem Execute_first_of_duplicates s0 ops vs this tr o trig T1 T2 more :
  perform_all Initial ops (mkFSM s0 ∅) = Returns vs this tr →
  filter (λ t, m_originState t = o ∧ m_trigger t = trig) (registrations ops)
    = T1 :: T2 :: more →
  m_currentState this = o →
  Execute trig this =
    Returns true (mkFSM (m_destinationState T1) (m_transitions this))
                 (invocations (m_action T1) o) ∧
  length (invocations (m_action T1) o) ≤ 1 ∧
  (∀ trig' this0, ∃ b this1 tr1,
     Execute trig' this0 = Returns b this1 tr1 ∧ length tr1 ≤ 1 ∧
     (this1 = this0 ∨
      ∃ t, t ∈ transitions_from this0 (m_currentState this0) ∧
           this1 = moved this0 t)).
Proof.
  intros Hrun Hreg Hcur.
  destruct (perform_all_effect ops (mkFSM s0 ∅))
    as (vs' & this' & tr' & Hrun' & Hfrom & _).
  rewrite Hrun in Hrun'. injection Hrun' as <- <- <-.
  split; [|split].
  - rewrite Execute_enabled. unfold enabled.
    rewrite first_match_filter, Hcur, Hfrom.
    unfold transitions_from at 1. simpl. rewrite lookup_empty. simpl.
    rewrite list_filter_filter.
    erewrite (list_filter_iff _ (λ t, m_originState t = o ∧ m_trigger t = trig));
      [|intros t; tauto].
    by rewrite Hreg.
  - destruct (m_action T1); simpl; lia.
  - intros trig' this0. rewrite Execute_enabled.
    destruct (enabled this0 trig') as [t|] eqn:Hen.
    + eexists _, _, _. split; [reflexivity|]. split.
      * destruct (m_action t); simpl; lia.
      * right. exists t. split; [|done].
        apply first_match_Some in Hen as (pre & post & -> & _).
        apply elem_of_app. right. by left.
    + eexists _, _, _. split; [reflexivity|]. split; [simpl; lia | by left].
Qed.

(** ** [SetState] and the frame of the current state *)

(** C6. [SetState X] always returns, makes no call, leaves the table as it
    is, and [GetState] then returns [X], whatever the table holds. *)
Theorem SetState_GetState this X :
  ∃ this', SetState X this = Returns () this' [] ∧
    GetState this' = Returns X this' [] ∧
    m_transitions this' = m_transitions this.
Proof. by exists (mkFSM X (m_transitions this)). Qed.

(** C7. [AddTransitions], [GetState], [IsInitial] and every [Execute] that
    returns [false] leave the current state as it was; so a call that
    changes the current state is a [SetState] or an [Execute] that
    returned [true]. *)
Theorem current_state_frame :
  (∀ xi this, ∃ this', AddTransitions xi this = Returns () this' [] ∧
                       m_currentState this' = m_currentState this) ∧
  (∀ this, GetState this = Returns (m_currentState this) this []) ∧
  (∀ this, ∃ b, IsInitial Initial this = Returns b this []) ∧
  (∀ trig this this' tr,
     Execute trig this = Returns false this' tr →
     m_currentState this' = m_currentState this) ∧
  (∀ op this v this' tr,
     perform Initial op this = Returns v this' tr →
     m_currentState this' ≠ m_currentState this →
     (∃ X, op = OpSetState X) ∨ (∃ trig, op = OpExecute trig ∧ v = VBool true)).
Proof.
  split; [|split; [|split; [|split]]].
  - intros xi this.
    destruct (AddTransitions_from xi this) as (this' & E & Hs & _). eauto.
  - done.
  - intros this. by eexists.
  - intros trig this this' tr. rewrite Execute_enabled.
    destruct (enabled this trig); [done|]. by intros [= <- _].
  - intros op this v this' tr Hrun Hne.
    destruct (perform_effect op this) as (v0 & this0 & tr0 & E & _ & Hcur).
    rewrite Hrun in E. injection E as <- <- <-.
    destruct Hcur as [?|[->|(trig & t & -> & -> & _)]]; [done|left|right]; eauto.
Qed.

(** C8, as amended. After any sequence of [AddTransitions], [GetState],
    [SetState], [IsInitial] and [Execute] calls on a default-constructed
    object, the current state is the initial state, or the origin or
    destination of a stored transition, or a state that was passed to
    [SetState] in the sequence. *)
Theorem current_state_provenance ops :
  ∃ vs this tr,
    perform_all Initial ops (FSM_default Initial) = Returns vs this tr ∧
    (m_currentState this = Initial ∨
     referenced this (m_currentState this) ∨
     m_currentState this ∈ SetState_arguments ops).
Proof.
  destruct (perform_all_effect ops (FSM_default Initial))
    as (vs & this & tr & Hrun & _ & Hcur).
  exists vs, this, tr. split; [done|].
  destruct Hcur as [?|[?|(t & Hreg & Hdest)]]; [by left|by right; right|].
  right; left. exists t. auto.
Qed.

End Properties.

(** * The example of the header comment, and further concrete runs *)

Section Examples.

Import Demo.

Lemma FSM_collection_transitions storage :
  FSM_collection storage transitions = Returns () (fsm storage) [].
Proof. reflexivity. Qed.

(** The example behaves as its comment says when the storage of
    [m_currentState] happens to hold [States::A] (the value 0). *)
Lemma example_on_zeroed_storage :
  perform_all A scenario (fsm A) =
    Returns [VBool true; VBool true; VState B; VBool true; VState C;
             VVoid; VBool true]
            (fsm A) [Invoke print_A_to_B A; Invoke print_B_to_C B].
Proof. reflexivity. Qed.

(** It also does on a default-constructed object to which the transitions
    are added afterwards. *)
Lemma example_on_default_constructed :
  perform_all A (OpAddTransitions transitions :: scenario) (FSM_default A) =
    Returns [VVoid; VBool true; VBool true; VState B; VBool true; VState C;
             VVoid; VBool true]
            (fsm A) [Invoke print_A_to_B A; Invoke print_B_to_C B].
Proof. reflexivity. Qed.

(** C1. [FSM<States, States::B, Triggers>] constructed from a collection in
    zero-initialised storage (an object of static storage duration, whose
    [m_currentState] therefore reads as [States::A], the value 0):
    [GetState] returns [A], not the initial state [B], and [IsInitial]
    returns [false]. *)
Theorem collection_constructor_not_initial :
  let this := mkFSM A (<[B := [second_rule]]> ∅) in
  FSM_collection A [second_rule] = Returns () this [] ∧
  GetState this = Returns A this [] ∧
  IsInitial B this = Returns false this [].
Proof. repeat split. Qed.

(** C5. The calls of the example on the object constructed from the
    example's transitions in storage that held [States::B]: the first
    [IsInitial] returns [false] and [Execute(Triggers::a)] returns [false],
    leaving the state at [B]. *)
Theorem example_on_stale_storage :
  FSM_collection B transitions = Returns () (fsm B) [] ∧
  perform_all A scenario (fsm B) =
    Returns [VBool false; VBool false; VState B; VBool true; VState C;
             VVoid; VBool true]
            (fsm A) [Invoke print_B_to_C B].
Proof. split; reflexivity. Qed.

(** C2, as stated, fails: [rival_rule] is in the table under the current
    state [A], yet [Execute(Triggers::a)] takes [first_rule], registered
    before it: it invokes the action of [first_rule] and moves to [B], not
    to [C]. *)
Lemma later_duplicate_not_taken :
  ∃ this,
    AddTransitions [first_rule; rival_rule] (FSM_default A) = Returns () this [] ∧
    m_currentState this = m_originState rival_rule ∧
    rival_rule ∈ transitions_from this (m_currentState this) ∧
    Execute (m_trigger rival_rule) this =
      Returns true (moved this first_rule) [Invoke print_A_to_B A] ∧
    GetState (moved this first_rule) = Returns B (moved this first_rule) [] ∧
    Execute (m_trigger rival_rule) this ≠
      Returns true (moved this rival_rule) [Invoke print_B_to_C A].
Proof.
  eexists. split; [reflexivity|]. split; [reflexivity|]. split.
  - vm_compute. apply list_elem_of_further, list_elem_of_here.
  - split; [reflexivity|]. split; [reflexivity|]. vm_compute. discriminate.
Qed.

(** C8, as stated, fails: after [SetState(States::C)] the current state is
    [C], which is not the initial state [A] and is neither origin nor
    destination of a stored transition. *)
Lemma SetState_to_unreferenced_state :
  ∃ this,
    perform_all A [OpAddTransitions [first_rule]; OpSetState C] (FSM_default A)
      = Returns [VVoid; VVoid] this [] ∧
    m_currentState this ≠ A ∧
    ¬ referenced this (m_currentState this).
Proof.
  eexists. split; [reflexivity|]. split; [discriminate|].
  intros (t & (s & ts & Hs & Ht) & Hor).
  destruct s; vm_compute in Hs; try discriminate.
  injection Hs as <-. apply list_elem_of_singleton in Ht as ->.
  destruct Hor; discriminate.
Qed.

(** ** The theorems at concrete objects *)

(** From [B] the example's object has no transition with trigger [a]. *)
Lemma Execute_no_match_witness :
  (m_transitions (fsm B) !! m_currentState (fsm B) = None ∨
   ∃ ts, m_transitions (fsm B) !! m_currentState (fsm B) = Some ts ∧
         Forall (λ t, m_trigger t ≠ a) ts) ∧
  Execute a (fsm B) = Returns false (fsm B) [].
Proof.
  assert (m_transitions (fsm B) !! m_currentState (fsm B) = None ∨
          ∃ ts, m_transitions (fsm B) !! m_currentState (fsm B) = Some ts ∧
                Forall (λ t, m_trigger t ≠ a) ts) as Hno.
  { right. exists [second_rule]. split; [reflexivity|].
    repeat constructor. discriminate. }
  split; [exact Hno | exact (Execute_no_match a (fsm B) Hno)].
Defined.

(** From [A] the example's object takes [first_rule]. *)
Lemma Execute_first_registered_witness :
  first_rule ∈ transitions_from (fsm A) (m_currentState (fsm A)) ∧
  (∃ this' tr, Execute a (fsm A) = Returns true this' tr) ∧
  ∃ this', Execute a (fsm A) = Returns true this' [Invoke print_A_to_B A] ∧
           GetState this' = Returns B this' [].
Proof.
  assert (first_rule ∈ transitions_from (fsm A) (m_currentState (fsm A))) as Hin.
  { vm_compute. apply list_elem_of_here. }
  destruct (Execute_first_registered (fsm A) first_rule Hin) as [Htrue Hfirst].
  split; [exact Hin|]. split; [exact Htrue|].
  apply (Hfirst [] []); [reflexivity | constructor].
Defined.

(** A transition without action, taken from [C]. *)
Lemma Execute_empty_action_witness :
  let this := mkFSM C (<[C := [silent_rule]]> table) in
  transitions_from this (m_currentState this) = [] ++ silent_rule :: [] ∧
  Forall (λ u : Trans States Triggers Lambdas,
            m_trigger u ≠ m_trigger silent_rule) [] ∧
  m_action silent_rule = None ∧
  Execute a this = Returns true (mkFSM A (m_transitions this)) [].
Proof.
  intros this.
  assert (transitions_from this (m_currentState this) = [] ++ silent_rule :: [])
    as Hdec by reflexivity.
  assert (Forall (λ u : Trans States Triggers Lambdas,
                    m_trigger u ≠ m_trigger silent_rule) []) as Hpre
    by constructor.
  split; [exact Hdec|]. split; [exact Hpre|]. split; [reflexivity|].
  exact (Execute_empty_action this silent_rule [] [] Hdec Hpre eq_refl).
Defined.

(** [first_rule] registered before [rival_rule], by two calls of
    [AddTransitions]. *)
Lemma Execute_first_of_duplicates_witness :
  let ops := [OpAddTransitions transitions; OpAddTransitions [rival_rule]] in
  let this := mkFSM A (<[A := [first_rule; rival_rule]]> table) in
  perform_all A ops (mkFSM A ∅) = Returns [VVoid; VVoid] this [] ∧
  filter (λ t, m_originState t = A ∧ m_trigger t = a) (registrations ops)
    = first_rule :: rival_rule :: [] ∧
  m_currentState this = A ∧
  Execute a this = Returns true (mkFSM B (m_transitions this))
                           [Invoke print_A_to_B A].
Proof.
  intros ops this.
  assert (perform_all A ops (mkFSM A ∅) = Returns [VVoid; VVoid] this [])
    as Hrun by reflexivity.
  assert (filter (λ t, m_originState t = A ∧ m_trigger t = a) (registrations ops)
          = first_rule :: rival_rule :: []) as Hreg by reflexivity.
  split; [exact Hrun|]. split; [exact Hreg|]. split; [reflexivity|].
  exact (proj1 (Execute_first_of_duplicates A A ops [VVoid; VVoid] this []
                  A a first_rule rival_rule [] Hrun Hreg eq_refl)).
Defined.

(** An [Execute] that returns [false] on the example's object. *)
Lemma current_state_frame_witness :
  Execute a (fsm B) = Returns false (fsm B) [] ∧
  m_currentState (fsm B) = m_currentState (fsm B).
Proof.
  assert (Execute a (fsm B) = Returns false (fsm B) []) as Hrun by reflexivity.
  split; [exact Hrun|].
  destruct (current_state_frame (Trigger:=Triggers) (Callable:=Lambdas) A)
    as (_ & _ & _ & Hexec & _).
  exact (Hexec a (fsm B) (fsm B) [] Hrun).
Defined.

End Examples.

(** * Further properties of the class *)

Section Further.

Context {State : Type} `{Countable State}.
Context {Trigger : Type} `{EqDecision Trigger}.
Context {Callable : Type}.
Variable Initial : State.

Implicit Types this : FSM State Trigger Callable.
Implicit Types t c : Trans State Trigger Callable.
Implicit Types ts xi xs ys : list (Trans State Trigger Callable).
Implicit Types tbl : gmap State (list (Trans State Trigger Callable)).
Implicit Types ops : list (Op State Trigger Callable).
Implicit Types s : State.
Implicit Types trig : Trigger.

(** ** [AddTransitions] *)

Lemma emplace_transition_eq c s tbl :
  emplace_transition c (mkFSM s tbl) =
  Returns () (mkFSM s (<[m_originState c :=
                          default [] (tbl !! m_originState c) ++ [c]]> tbl)) [].
Proof. reflexivity. Qed.

Lemma AddTransitions_loop_cons c xi s tbl :
  AddTransitions_loop (c :: xi) (mkFSM s tbl) =
  AddTransitions_loop xi
    (mkFSM s (<[m_originState c := default [] (tbl !! m_originState c) ++ [c]]> tbl)).
Proof.
  cbn [AddTransitions_loop]. unfold mbind, M_mbind, M_bind.
  rewrite emplace_transition_eq.
  by destruct (AddTransitions_loop xi _).
Qed.

(** The loop returns, and its table is a function of the table it started
    from; the current state is carried along. *)
Lemma AddTransitions_loop_table xi tbl :
  ∃ tbl', ∀ s,
    AddTransitions_loop xi (mkFSM s tbl) = Returns () (mkFSM s tbl') [] ∧
    ∀ o, tbl' !! o =
         match filter (λ t, m_originState t = o) xi with
         | [] => tbl !! o
         | c :: new => Some (default [] (tbl !! o) ++ c :: new)
         end.
Proof.
  revert tbl. induction xi as [|c xi IH]; intros tbl.
  - exists tbl. intros s. split; [done|]. intros o. by rewrite filter_nil.
  - destruct (IH (<[m_originState c :=
                     default [] (tbl !! m_originState c) ++ [c]]> tbl))
      as (tbl' & Htbl').
    exists tbl'. intros s. destruct (Htbl' s) as [E Hlook].
    split; [by rewrite AddTransitions_loop_cons|].
    intros o. rewrite Hlook, filter_cons.
    destruct (decide (m_originState c = o)) as [<-|Hne].
    + rewrite lookup_insert_eq. simpl.
      destruct (filter _ xi) as [|d new]; [done|].
      by rewrite <-(assoc_L (++)).
    + rewrite lookup_insert_ne by done.
      by destruct (filter _ xi).
Qed.

Lemma AddTransitions_table xi tbl :
  ∃ tbl', ∀ s,
    AddTransitions xi (mkFSM s tbl) = Returns () (mkFSM s tbl') [] ∧
    ∀ o, tbl' !! o =
         match filter (λ t, m_originState t = o) xi with
         | [] => tbl !! o
         | c :: new => Some (default [] (tbl !! o) ++ c :: new)
         end.
Proof.
  destruct (AddTransitions_loop_table xi tbl) as (tbl' & Htbl').
  exists tbl'. intros s. destruct (Htbl' s) as [E Hlook].
  split; [|done]. unfold AddTransitions, noexcept. by rewrite E.
Qed.

(** X1. [AddTransitions] always returns and invokes nothing; it keeps the
    current state; an origin that occurs in the collection gets its vector
    (created if absent) extended by the collection's transitions with that
    origin, in the order of the collection; every other entry of the table,
    present or absent, stays as it was. *)
Theorem AddTransitions_appends_by_origin xi this :
  ∃ this', AddTransitions xi this = Returns () this' [] ∧
    m_currentState this' = m_currentState this ∧
    ∀ o, m_transitions this' !! o =
         match filter (λ t, m_originState t = o) xi with
         | [] => m_transitions this !! o
         | c :: new => Some (default [] (m_transitions this !! o) ++ c :: new)
         end.
Proof.
  destruct this as [s tbl].
  destruct (AddTransitions_table xi tbl) as (tbl' & Htbl').
  destruct (Htbl' s) as [E Hlook]. by exists (mkFSM s tbl').
Qed.

Lemma AddTransitions_loop_app xs ys s tbl tbl1 :
  AddTransitions_loop xs (mkFSM s tbl) = Returns () (mkFSM s tbl1) [] →
  AddTransitions_loop (xs ++ ys) (mkFSM s tbl) =
  AddTransitions_loop ys (mkFSM s tbl1).
Proof.
  revert tbl. induction xs as [|c xs IH]; intros tbl; simpl app.
  - by intros [= ->].
  - rewrite !AddTransitions_loop_cons. apply IH.
Qed.

(** X2. Registering in two calls is registering the concatenation in one
    call: both leave the same object. *)
Theorem AddTransitions_app xs ys this :
  ∃ this1 this2,
    AddTransitions xs this = Returns () this1 [] ∧
    AddTransitions ys this1 = Returns () this2 [] ∧
    AddTransitions (xs ++ ys) this = Returns () this2 [].
Proof.
  destruct this as [s tbl].
  destruct (AddTransitions_loop_table xs tbl) as (tbl1 & H1).
  destruct (AddTransitions_loop_table ys tbl1) as (tbl2 & H2).
  destruct (H1 s) as [E1 _]. destruct (H2 s) as [E2 _].
  exists (mkFSM s tbl1), (mkFSM s tbl2).
  unfold AddTransitions, noexcept.
  by rewrite (AddTransitions_loop_app xs ys s tbl tbl1 E1), E1, E2.
Qed.

(** X11. The constructors from a collection build the table that the default
    constructor followed by [AddTransitions] builds; the two objects differ
    only in the current state, which is [Initial] for the latter and the
    content of the storage for the former. *)
Theorem constructors_same_table storage xi :
  ∃ tbl,
    FSM_collection storage xi = Returns () (mkFSM storage tbl) [] ∧
    AddTransitions xi (FSM_default Initial) = Returns () (mkFSM Initial tbl) [] ∧
    ∀ o, tbl !! o =
         match filter (λ t, m_originState t = o) xi with
         | [] => None
         | c :: new => Some (c :: new)
         end.
Proof.
  destruct (AddTransitions_table xi ∅) as (tbl & Htbl).
  exists tbl. split; [apply Htbl|]. split; [apply Htbl|].
  intros o. destruct (Htbl Initial) as [_ Hlook]. rewrite Hlook.
  rewrite lookup_empty. by destruct (filter _ xi).
Qed.

(** ** Single calls, as equations *)

Lemma perform_AddTransitions xi s tbl :
  ∃ tbl',
    perform Initial (OpAddTransitions xi) (mkFSM s tbl) =
      Returns VVoid (mkFSM s tbl') [] ∧
    ∀ o, tbl' !! o =
         match filter (λ t, m_originState t = o) xi with
         | [] => tbl !! o
         | c :: new => Some (default [] (tbl !! o) ++ c :: new)
         end.
Proof.
  destruct (AddTransitions_table xi tbl) as (tbl' & Htbl').
  exists tbl'. destruct (Htbl' s) as [E Hlook]. split; [|done].
  cbn [perform]. unfold mbind, M_mbind, M_bind. by rewrite E.
Qed.

Lemma perform_Execute trig s tbl :
  ∃ tr,
    perform Initial (OpExecute trig) (mkFSM s tbl) =
      Returns (VBool (accepts tbl s trig)) (mkFSM (delta tbl s trig) tbl) tr ∧
    tr = match first_match trig (default [] (tbl !! s)) with
         | Some t => invocations (m_action t) s
         | None => []
         end.
Proof.
  cbn [perform]. unfold mbind, M_mbind, M_bind. rewrite Execute_enabled.
  unfold enabled, transitions_from, accepts, delta, moved. simpl.
  destruct (first_match trig (default [] (tbl !! s))) as [t|];
    eexists; (split; [reflexivity|]); by rewrite ?app_nil_r.
Qed.

Lemma invocations_length (f : option Callable) s :
  length (invocations f s) ≤ 1.
Proof. destruct f; simpl; lia. Qed.

(** ** The table along a run *)

Lemma perform_all_nil this :
  perform_all Initial [] this = Returns [] this [].
Proof. done. Qed.

Lemma well_keyed_perform op this :
  well_keyed this →
  ∃ v this' tr, perform Initial op this = Returns v this' tr ∧ well_keyed this'.
Proof.
  intros Hwk. destruct this as [s tbl]. destruct op as [xi| |x| |trig].
  - destruct (perform_AddTransitions xi s tbl) as (tbl' & E & Hlook).
    eexists _, _, _. split; [exact E|].
    intros o ts. simpl. rewrite Hlook.
    destruct (filter (λ t, m_originState t = o) xi) as [|c new] eqn:Hf.
    + apply Hwk.
    + intros [= <-]. split; [by destruct (default [] (tbl !! o))|].
      apply Forall_app. split.
      * destruct (tbl !! o) as [old|] eqn:Hold; [|constructor].
        by apply (Hwk o old).
      * rewrite <-Hf. apply Forall_forall. intros t Ht.
        by apply list_elem_of_filter in Ht as [? _].
  - by eexists _, _, _.
  - by eexists _, _, _.
  - by eexists _, _, _.
  - destruct (perform_Execute trig s tbl) as (tr & E & _).
    eexists _, _, _. split; [exact E|]. exact Hwk.
Qed.

Lemma well_keyed_perform_all ops this :
  well_keyed this →
  ∃ vs this' tr, perform_all Initial ops this = Returns vs this' tr ∧
                 well_keyed this'.
Proof.
  revert this. induction ops as [|op ops IH]; intros this Hwk.
  - by exists [], this, [].
  - destruct (well_keyed_perform op this Hwk) as (v & this1 & tr1 & E1 & Hwk1).
    destruct (IH this1 Hwk1) as (vs & this2 & tr2 & E2 & Hwk2).
    exists (v :: vs), this2, (tr1 ++ tr2).
    split; [by apply (perform_all_cons _ _ _ _ _ this1)|done].
Qed.

(** X3. On an object whose table was empty after member initialisation
    (either constructor), after any sequence of calls: no vector of the table
    is empty, every stored transition lies under its own origin, and a state
    has no entry exactly when no transition with that origin was ever
    registered. So the [find] of [Execute] misses exactly for the states
    without registered outgoing transitions. *)
Theorem table_well_keyed s0 ops :
  ∃ vs this tr,
    perform_all Initial ops (mkFSM s0 ∅) = Returns vs this tr ∧
    well_keyed this ∧
    ∀ s, m_transitions this !! s = None ↔
         Forall (λ t, m_originState t ≠ s) (registrations ops).
Proof.
  assert (well_keyed (mkFSM (Trigger:=Trigger) (Callable:=Callable) s0 ∅)) as Hwk0.
  { intros s ts. simpl. by rewrite lookup_empty. }
  destruct (well_keyed_perform_all ops _ Hwk0) as (vs & this & tr & E & Hwk).
  exists vs, this, tr. split; [done|]. split; [done|].
  destruct (perform_all_effect Initial ops (mkFSM s0 ∅))
    as (vs' & this' & tr' & E' & Hfrom & _).
  rewrite E in E'. injection E' as <- <- <-.
  intros s. specialize (Hfrom s). unfold transitions_from in Hfrom.
  simpl in Hfrom. rewrite lookup_empty in Hfrom. simpl in Hfrom.
  rewrite Forall_forall. split.
  - intros Hnone t Ht Ho. rewrite Hnone in Hfrom. simpl in Hfrom.
    assert (t ∈ filter (λ t, m_originState t = s) (registrations ops)) as Hin
      by by apply list_elem_of_filter.
    rewrite <-Hfrom in Hin. by apply elem_of_nil in Hin.
  - intros Hno. destruct (m_transitions this !! s) as [ts|] eqn:Hs; [|done].
    destruct (Hwk s ts Hs) as [Hne _]. simpl in Hfrom.
    destruct ts as [|t ts]; [done|].
    assert (t ∈ filter (λ t, m_originState t = s) (registrations ops)) as Hin
      by (rewrite <-Hfrom; left).
    apply list_elem_of_filter in Hin as [Ho Hin]. by destruct (Hno t Hin).
Qed.

Lemma perform_all_without_registration ops s tbl :
  registrations ops = [] →
  ∃ vs s' tr, perform_all Initial ops (mkFSM s tbl) = Returns vs (mkFSM s' tbl) tr.
Proof.
  revert s. induction ops as [|op ops IH]; intros s Hreg.
  - by exists [], s, [].
  - rewrite registrations_cons in Hreg.
    apply app_eq_nil in Hreg as [Hop Hops].
    assert (∃ v s1 tr1, perform Initial op (mkFSM s tbl) =
                        Returns v (mkFSM s1 tbl) tr1) as (v & s1 & tr1 & E1).
    { destruct op as [xi| |x| |trig].
      - simpl in Hop. rewrite app_nil_r in Hop. subst xi. by exists VVoid, s, [].
      - by eexists _, s, _.
      - by eexists _, x, _.
      - by eexists _, s, _.
      - destruct (perform_Execute trig s tbl) as (tr & E & _). eauto. }
    destruct (IH s1 Hops) as (vs & s2 & tr2 & E2).
    exists (v :: vs), s2, (tr1 ++ tr2).
    by apply (perform_all_cons _ _ _ _ _ (mkFSM s1 tbl)).
Qed.

Lemma table_growth_of_run ops this :
  ∃ vs this' tr,
    perform_all Initial ops this = Returns vs this' tr ∧
    ∀ s, transitions_from this s `prefix_of` transitions_from this' s.
Proof.
  destruct (perform_all_effect Initial ops this)
    as (vs & this' & tr & E & Hfrom & _).
  exists vs, this', tr. split; [done|].
  intros s. rewrite Hfrom. by eexists.
Qed.

(** X4. Stored transitions are never removed or reordered: after any
    sequence of calls the vector of every state starts with the vector it
    had before.  A sequence that registers nothing ([GetState], [SetState],
    [IsInitial], [Execute], [AddTransitions] of empty collections) leaves the
    whole table as it was. *)
Theorem table_only_grows ops this :
  ∃ vs this' tr,
    perform_all Initial ops this = Returns vs this' tr ∧
    (∀ s, transitions_from this s `prefix_of` transitions_from this' s) ∧
    (registrations ops = [] → m_transitions this' = m_transitions this).
Proof.
  destruct (perform_all_effect Initial ops this)
    as (vs & this' & tr & E & Hfrom & _).
  exists vs, this', tr. split; [done|]. split.
  - intros s. rewrite Hfrom. by eexists.
  - intros Hreg. destruct this as [s tbl].
    destruct (perform_all_without_registration ops s tbl Hreg)
      as (vs' & s' & tr' & E').
    rewrite E in E'. by injection E' as -> -> ->.
Qed.

(** ** Dispatch *)

Lemma filter_origin_other xi s :
  Forall (λ c, m_originState c ≠ s) xi →
  filter (λ t, m_originState t = s) xi = [].
Proof.
  induction 1 as [|c xi Hc _ IH]; [done|].
  by rewrite filter_cons, decide_False.
Qed.

(** X5. Transitions registered for other states do not affect the dispatch
    from the current state: after [AddTransitions] of transitions none of
    which has the current state as origin, [Execute] returns the same
    boolean, invokes the same callback and reaches the same state as it
    would have before. *)
Theorem Execute_ignores_other_origins xi this trig :
  Forall (λ c, m_originState c ≠ m_currentState this) xi →
  ∃ this1 b s' tr,
    AddTransitions xi this = Returns () this1 [] ∧
    Execute trig this = Returns b (mkFSM s' (m_transitions this)) tr ∧
    Execute trig this1 = Returns b (mkFSM s' (m_transitions this1)) tr.
Proof.
  intros Hother.
  destruct (AddTransitions_from xi this) as (this1 & E & Hs & Hfrom).
  assert (enabled this1 trig = enabled this trig) as Hen.
  { unfold enabled. rewrite Hs, Hfrom, filter_origin_other by done.
    by rewrite app_nil_r. }
  pose proof (Execute_enabled trig this) as E0.
  pose proof (Execute_enabled trig this1) as E1.
  rewrite Hen, Hs in E1.
  destruct (enabled this trig) as [t|].
  - by exists this1, true, (m_destinationState t),
      (invocations (m_action t) (m_currentState this)).
  - exists this1, false, (m_currentState this), [].
    split; [done|]. rewrite E0, E1. split; [by destruct this|].
    rewrite <-Hs. by destruct this1.
Qed.

(** X6. A state is a dead end for the triggers that none of its registered
    transitions carries (for all triggers when it has no entry): every
    [Execute] of a run of such triggers returns [false], and the run leaves
    the object as it was and invokes nothing. *)
Theorem Execute_dead_end trigs this :
  Forall (λ trig, Forall (λ t, m_trigger t ≠ trig)
                    (transitions_from this (m_currentState this))) trigs →
  perform_all Initial (OpExecute <$> trigs) this =
    Returns ((λ _, VBool false) <$> trigs) this [].
Proof.
  induction 1 as [|trig trigs Htrig _ IH]; [done|].
  rewrite !fmap_cons.
  apply (perform_all_cons _ _ _ _ _ this [] _ _ []); [|done].
  cbn [perform]. unfold mbind, M_mbind, M_bind. rewrite Execute_enabled.
  assert (enabled this trig = None) as ->; [|done].
  by apply first_match_None.
Qed.

(** X7. Dispatch in terms of what was registered: on an object whose table
    was empty after member initialisation, after any sequence of calls,
    [Execute trig] takes the earliest registered transition whose origin is
    the current state and whose trigger is [trig], and returns [false]
    without any effect when no such transition was registered. *)
Theorem Execute_dispatch_by_history s0 ops trig :
  ∃ vs this tr,
    perform_all Initial ops (mkFSM s0 ∅) = Returns vs this tr ∧
    Execute trig this =
      match head (filter (λ t, m_originState t = m_currentState this ∧
                               m_trigger t = trig) (registrations ops)) with
      | Some t =>
          Returns true (mkFSM (m_destinationState t) (m_transitions this))
                       (invocations (m_action t) (m_currentState this))
      | None => Returns false this []
      end.
Proof.
  destruct (perform_all_effect Initial ops (mkFSM s0 ∅))
    as (vs & this & tr & E & Hfrom & _).
  exists vs, this, tr. split; [done|].
  rewrite Execute_enabled. unfold enabled.
  rewrite first_match_filter, Hfrom.
  unfold transitions_from at 1. simpl. rewrite lookup_empty. simpl.
  rewrite list_filter_filter.
  erewrite (list_filter_iff _ (λ t, m_originState t = m_currentState this ∧
                                    m_trigger t = trig));
    [|intros t; tauto].
  by destruct (head _).
Qed.

(** X10. A run of [Execute] calls is the run of the automaton read off the
    table: from state [s] the machine ends in the state obtained by folding
    [delta] over the triggers, the returned booleans are those of [answers],
    the table is unchanged, and at most one callback is invoked per
    trigger. *)
Theorem Execute_run trigs s tbl :
  ∃ tr,
    perform_all Initial (OpExecute <$> trigs) (mkFSM s tbl) =
      Returns (answers tbl s trigs) (mkFSM (foldl (delta tbl) s trigs) tbl) tr ∧
    length tr ≤ length trigs.
Proof.
  revert s. induction trigs as [|trig trigs IH]; intros s.
  - exists []. by split.
  - destruct (perform_Execute trig s tbl) as (tr1 & E1 & Htr1).
    destruct (IH (delta tbl s trig)) as (tr2 & E2 & Hlen2).
    exists (tr1 ++ tr2). split.
    + rewrite fmap_cons. cbn [answers foldl].
      by apply (perform_all_cons _ _ _ _ _ (mkFSM (delta tbl s trig) tbl)).
    + rewrite length_app. simpl.
      assert (length tr1 ≤ 1); [|lia].
      subst tr1. destruct (first_match _ _); [apply invocations_length|simpl; lia].
Qed.

(** ** Callbacks along a run *)

(** X8. Only an [Execute] that returns [true] invokes a callback, and it
    invokes at most one: in any sequence of calls the number of invocations
    is at most the number of [Execute] calls that returned [true].  Each
    call of the sequence yields one result. *)
Theorem invocations_bounded ops this :
  ∃ vs this' tr,
    perform_all Initial ops this = Returns vs this' tr ∧
    length vs = length ops ∧
    length tr ≤ successes ops vs.
Proof.
  revert this. induction ops as [|op ops IH]; intros this.
  - exists [], this, []. by repeat split.
  - assert (∃ v this1 tr1, perform Initial op this = Returns v this1 tr1 ∧
              length tr1 ≤ successes [op] [v]) as (v & this1 & tr1 & E1 & Hlen1).
    { destruct this as [s tbl]. destruct op as [xi| |x| |trig].
      - destruct (perform_AddTransitions xi s tbl) as (tbl' & E & _).
        eexists _, _, _. split; [exact E|done].
      - eexists _, _, _. split; [reflexivity|done].
      - eexists _, _, _. split; [reflexivity|done].
      - eexists _, _, _. split; [reflexivity|done].
      - destruct (perform_Execute trig s tbl) as (tr & E & Htr).
        eexists _, _, _. split; [exact E|]. subst tr. unfold accepts.
        destruct (first_match _ _); [apply invocations_length|done]. }
    destruct (IH this1) as (vs & this2 & tr2 & E2 & Hvs & Hlen2).
    exists (v :: vs), this2, (tr1 ++ tr2).
    split; [by apply (perform_all_cons _ _ _ _ _ this1)|].
    split; [simpl; by rewrite Hvs|].
    rewrite length_app.
    assert (successes (op :: ops) (v :: vs) =
            successes [op] [v] + successes ops vs) as ->; [|lia].
    destruct op, v as [| |[]]; reflexivity.
Qed.

Lemma from_table_grows this this' e :
  (∀ s, transitions_from this s `prefix_of` transitions_from this' s) →
  from_table this e → from_table this' e.
Proof.
  intros Hgrow. destruct e as [target during]. intros (t & Ht & Hact).
  exists t. split; [|done].
  destruct (Hgrow during) as [k ->]. apply elem_of_app. by left.
Qed.

(** X9. The class only ever invokes what was registered: in any sequence of
    calls, every invocation is of the action of a transition that the table
    holds under the state the machine was in at the moment of the call. *)
Theorem invocations_from_table ops this :
  ∃ vs this' tr,
    perform_all Initial ops this = Returns vs this' tr ∧
    Forall (from_table this') tr.
Proof.
  revert this. induction ops as [|op ops IH]; intros this.
  - exists [], this, []. by split.
  - assert (∃ v this1 tr1, perform Initial op this = Returns v this1 tr1 ∧
              Forall (from_table this1) tr1) as (v & this1 & tr1 & E1 & Htr1).
    { destruct this as [s tbl]. destruct op as [xi| |x| |trig].
      - destruct (perform_AddTransitions xi s tbl) as (tbl' & E & _).
        eexists _, _, _. split; [exact E|constructor].
      - eexists _, _, _. split; [reflexivity|constructor].
      - eexists _, _, _. split; [reflexivity|constructor].
      - eexists _, _, _. split; [reflexivity|constructor].
      - destruct (perform_Execute trig s tbl) as (tr & E & Htr).
        eexists _, _, _. split; [exact E|]. subst tr.
        destruct (first_match trig (default [] (tbl !! s))) as [t|] eqn:Hfm;
          [|constructor].
        destruct (m_action t) as [target|] eqn:Hact; [|constructor].
        repeat constructor. exists t. split; [|done].
        apply first_match_Some in Hfm as (pre & post & Hdec & _).
        unfold transitions_from. simpl. rewrite Hdec.
        apply elem_of_app. right. by left. }
    destruct (IH this1) as (vs & this2 & tr2 & E2 & Htr2).
    exists (v :: vs), this2, (tr1 ++ tr2).
    split; [by apply (perform_all_cons _ _ _ _ _ this1)|].
    apply Forall_app. split; [|done].
    destruct (table_growth_of_run ops this1) as (vs' & this2' & tr2' & E2' & Hgrow).
    rewrite E2 in E2'. injection E2' as <- <- <-.
    eapply Forall_impl; [exact Htr1|].
    intros e. by apply from_table_grows.
Qed.

End Further.

Section FurtherExamples.

Import Demo.

(** Registering [second_rule], whose origin is [B], does not change what
    [Execute(Triggers::a)] does in state [A]. *)
Lemma Execute_ignores_other_origins_witness :
  Forall (λ c, m_originState c ≠ m_currentState (fsm A)) [second_rule] ∧
  ∃ this1 b s' tr,
    AddTransitions [second_rule] (fsm A) = Returns () this1 [] ∧
    Execute a (fsm A) = Returns b (mkFSM s' (m_transitions (fsm A))) tr ∧
    Execute a this1 = Returns b (mkFSM s' (m_transitions this1)) tr.
Proof.
  assert (Forall (λ c, m_originState c ≠ m_currentState (fsm A)) [second_rule])
    as Hother by (repeat constructor; discriminate).
  split; [exact Hother|].
  exact (Execute_ignores_other_origins [second_rule] (fsm A) a Hother).
Defined.

(** In state [B] the example's machine has no transition with trigger [a],
    and in state [C] it has no transition at all. *)
Lemma Execute_dead_end_witness :
  Forall (λ trig, Forall (λ t, m_trigger t ≠ trig)
                    (transitions_from (fsm B) (m_currentState (fsm B)))) [a; a] ∧
  perform_all A (OpExecute <$> [a; a]) (fsm B) =
    Returns ((λ _, VBool false) <$> [a; a]) (fsm B) [].
Proof.
  assert (Forall (λ trig, Forall (λ t, m_trigger t ≠ trig)
                    (transitions_from (fsm B) (m_currentState (fsm B)))) [a; a])
    as Hdead.
  { repeat constructor; discriminate. }
  split; [exact Hdead|].
  exact (Execute_dead_end A [a; a] (fsm B) Hdead).
Defined.

End FurtherExamples.

(** * [Execute] and exceptions *)

Section RaisingProperties.

Context {State : Type} `{Countable State}.
Context {Trigger : Type} `{EqDecision Trigger}.
Context {Callable : Type}.
Variable raises : Callable → bool.

Implicit Types this : FSM State Trigger Callable.
Implicit Types t : Trans State Trigger Callable.
Implicit Types ts : list (Trans State Trigger Callable).
Implicit Types trig : Trigger.

Lemma raising_Execute_loop_first_match trig ts this :
  Raising.Execute_loop raises trig ts this =
  match first_match trig ts with
  | None => Returns false this []
  | Some t =>
      match m_action t with
      | None => Returns true (moved this t) []
      | Some f =>
          if raises f
          then Throws target_exception this [Invoke f (m_currentState this)]
          else Returns true (moved this t) [Invoke f (m_currentState this)]
      end
  end.
Proof.
  induction ts as [|u ts IH]; simpl; [done|].
  destruct (decide (trig ≠ m_trigger u)) as [Hne|Heq].
  - rewrite decide_False by done. apply IH.
  - apply dec_stable in Heq. rewrite decide_True by done.
    unfold mbind, M_mbind, M_bind, Raising.call, has_target.
    destruct (m_action u) as [f|]; [|done].
    by destruct (raises f).
Qed.

(** The body of [Execute] lets the exception of the action through. *)
Lemma raising_Execute_body_enabled trig this :
  Raising.Execute_body raises trig this =
  match enabled this trig with
  | None => Returns false this []
  | Some t =>
      match m_action t with
      | None => Returns true (moved this t) []
      | Some f =>
          if raises f
          then Throws target_exception this [Invoke f (m_currentState this)]
          else Returns true (moved this t) [Invoke f (m_currentState this)]
      end
  end.
Proof.
  unfold Raising.Execute_body, enabled, transitions_from.
  unfold mbind, M_mbind, M_bind, read_currentState, read_transitions. simpl.
  destruct (m_transitions this !! m_currentState this) as [ts|]; simpl; [|done].
  rewrite raising_Execute_loop_first_match.
  destruct (first_match trig ts) as [t|]; [|done].
  destruct (m_action t) as [f|]; [|done].
  by destruct (raises f).
Qed.

(** [noexcept] ends the program where the body would throw. *)
Lemma raising_Execute_enabled trig this :
  Raising.Execute raises trig this =
  match enabled this trig with
  | None => Returns false this []
  | Some t =>
      match m_action t with
      | None => Returns true (moved this t) []
      | Some f =>
          if raises f
          then Terminates [Invoke f (m_currentState this)]
          else Returns true (moved this t) [Invoke f (m_currentState this)]
      end
  end.
Proof.
  unfold Raising.Execute, noexcept. rewrite raising_Execute_body_enabled.
  destruct (enabled this trig) as [t|]; [|done].
  destruct (m_action t) as [f|]; [|done].
  by destruct (raises f).
Qed.

(** C9. For every trigger and every object, whatever the call targets do,
    no exception leaves [Execute]: [noexcept] turns the exception of an
    action into a call of [std::terminate].  Whenever [Execute] returns, its
    boolean is [true] exactly when the current state has a transition with
    the trigger, and then the object has taken the first such transition;
    when it returns [false] nothing has happened.  [Execute] does return
    unless the action of that first transition throws, in which case the
    program ends after this one invocation. *)
Theorem Execute_never_throws trig this :
  (∀ e this' tr, Raising.Execute raises trig this ≠ Throws e this' tr) ∧
  (∀ b this' tr,
     Raising.Execute raises trig this = Returns b this' tr →
     (b = true ↔
      ∃ t, t ∈ transitions_from this (m_currentState this) ∧ m_trigger t = trig) ∧
     (b = true →
      ∃ pre t post,
        transitions_from this (m_currentState this) = pre ++ t :: post ∧
        Forall (λ u, m_trigger u ≠ trig) pre ∧ m_trigger t = trig ∧
        this' = moved this t ∧
        tr = invocations (m_action t) (m_currentState this)) ∧
     (b = false → this' = this ∧ tr = [])) ∧
  ((∃ b this' tr, Raising.Execute raises trig this = Returns b this' tr) ∨
   (∃ pre t post f,
      transitions_from this (m_currentState this) = pre ++ t :: post ∧
      Forall (λ u, m_trigger u ≠ trig) pre ∧ m_trigger t = trig ∧
      m_action t = Some f ∧ raises f = true ∧
      Raising.Execute_body raises trig this =
        Throws target_exception this [Invoke f (m_currentState this)] ∧
      Raising.Execute raises trig this =
        Terminates [Invoke f (m_currentState this)])).
Proof.
  rewrite raising_Execute_enabled, raising_Execute_body_enabled.
  destruct (enabled this trig) as [t|] eqn:Hen.
  - apply first_match_Some in Hen as (pre & post & Hdec & Ht & Hpre).
    assert (t ∈ transitions_from this (m_currentState this)) as Hin.
    { rewrite Hdec. apply elem_of_app. right. by left. }
    destruct (m_action t) as [f|] eqn:Hact; [destruct (raises f) eqn:Hf|].
    + split; [done|]. split; [done|]. right.
      by exists pre, t, post, f.
    + split; [done|]. split; [|by left; eauto].
      intros b this' tr [= <- <- <-]. split; [|split]; [| |done].
      * split; [eauto|done].
      * intros _. exists pre, t, post. by rewrite Hact.
    + split; [done|]. split; [|by left; eauto].
      intros b this' tr [= <- <- <-]. split; [|split]; [| |done].
      * split; [eauto|done].
      * intros _. exists pre, t, post. by rewrite Hact.
  - apply first_match_None in Hen.
    split; [done|]. split; [|by left; eauto].
    intros b this' tr [= <- <- <-]. split; [|split]; [|done|done].
    split; [done|]. intros (t & Ht & Htrig).
    rewrite Forall_forall in Hen. by destruct (Hen t Ht).
Qed.

End RaisingProperties.

(** When no target throws, this is the [Execute] of the other properties. *)
Lemma Execute_of_returning_targets {State : Type} `{Countable State}
    {Trigger : Type} `{EqDecision Trigger} {Callable : Type}
    (trig : Trigger) (this : FSM State Trigger Callable) :
  Raising.Execute (λ _, false) trig this = Execute trig this.
Proof.
  rewrite Execute_enabled, raising_Execute_enabled.
  destruct (enabled this trig) as [t|]; [|done].
  unfold invocations. by destruct (m_action t).
Qed.

(** In the example's machine with a first action that throws,
    [Execute(Triggers::a)] from [A] ends the program where its body throws,
    and [Execute(Triggers::b)] from [B] returns as before. *)
Lemma Execute_throwing_action_terminates :
  let raises := λ f, match f with
                     | Demo.print_A_to_B => true
                     | Demo.print_B_to_C => false
                     end in
  Raising.Execute_body raises Demo.a (Demo.fsm Demo.A) =
    Throws target_exception (Demo.fsm Demo.A) [Invoke Demo.print_A_to_B Demo.A] ∧
  Raising.Execute raises Demo.a (Demo.fsm Demo.A) =
    Terminates [Invoke Demo.print_A_to_B Demo.A] ∧
  Raising.Execute raises Demo.b (Demo.fsm Demo.B) =
    Returns true (Demo.fsm Demo.C) [Invoke Demo.print_B_to_C Demo.B].
Proof. repeat split. Qed.
